(** * Thinkers Shelf cart (src/cart.js): a shallow embedding and its properties

    The development follows the source file top to bottom:
    - JavaScript strings and the string methods the cart uses;
    - [resolveImagePath] and [normalizePathForStorage];
    - the platform's JSON codec ([JSON.stringify], [JSON.parse]) over the
      values that can live in [localStorage];
    - [getCart] / [saveCart] over [localStorage];
    - the mutations [addToCart], [removeFromCart], [updateQuantity],
      [clearCart] and the totals of [renderCart].

    Modelling conventions.
    - A JavaScript string is the list of its UTF-16 code units ([list N]).
    - The numbers held by a cart ([price], [quantity]) are integers; they
      are modelled as [Z], which is exact as long as the values stay in the
      range where JavaScript numbers represent integers exactly.
    - [localStorage] is a finite map from keys to strings.
    - An exception is a [Throw] completion; [try]/[catch] is [try_catch]. *)

From Stdlib Require Import ZArith NArith String Ascii Decimal DecimalZ DecimalPos Lia.
From stdpp Require Import base tactics option list gmap.

(** ** JavaScript strings *)

Abbreviation jstring := (list N).

(** The code units of an ASCII literal. *)
Fixpoint lit (s : string) : jstring :=
  match s with
  | EmptyString => []
  | String a s' => N_of_ascii a :: lit s'
  end.

(** [s.startsWith(prefix)] *)
Fixpoint startsWith (s prefix : jstring) {struct prefix} : bool :=
  match prefix, s with
  | [], _ => true
  | p :: ps, c :: cs => (c =? p)%N && startsWith cs ps
  | _ :: _, [] => false
  end.

(** [s.includes(pat)] *)
Fixpoint includes (s pat : jstring) : bool :=
  startsWith s pat ||
  match s with
  | [] => false
  | _ :: t => includes t pat
  end.

(** [s.replace(pat, rep)] with a string pattern: the first occurrence only. *)
Fixpoint replace (s pat rep : jstring) : jstring :=
  if startsWith s pat then rep ++ drop (length pat) s
  else match s with
       | [] => []
       | c :: t => c :: replace t pat rep
       end.

(** [!s] for a string: only the empty string is falsy. *)
Definition falsy (s : jstring) : bool :=
  match s with [] => true | _ :: _ => false end.

(** ** Path helpers (cart.js lines 13-33) *)

(** [window.location.pathname.includes("/details/")] *)
Definition isDetailsPage (pathname : jstring) : bool :=
  includes pathname (lit "/details/").

Definition resolveImagePath (pathname rawPath : jstring) : jstring :=
  if falsy rawPath then lit ""
  else if startsWith rawPath (lit "http") || startsWith rawPath (lit "//")
  then rawPath
  else
    let hasParentTraversal := startsWith rawPath (lit "../") in
    if isDetailsPage pathname && negb hasParentTraversal
    then lit "../" ++ rawPath
    else if negb (isDetailsPage pathname) && hasParentTraversal
    then replace rawPath (lit "../") (lit "")
    else rawPath.

(** [path.replace(/^\.\.\//, "")]: the pattern is anchored at the start and
    has no [g] flag, so at most one leading occurrence is removed. *)
Definition normalizePathForStorage (path : jstring) : jstring :=
  if startsWith path (lit "../") then drop 3 path else path.

(** ** Values that JSON can carry *)

(** A parsed JSON text is one of these. [VFrac] keeps a number written with
    a fraction or an exponent as its literal text: such numbers are not
    integers of the cart model and are never interpreted.  An object is
    its member list in source order; the merging of repeated keys and the
    reordering of array-index keys that JavaScript objects perform are not
    modelled.  The typed reading [as_item] below accepts only objects with
    exactly the five properties of a cart item, and for those the member
    list is the object. *)
#[warnings="-register-all"]
Inductive value : Type :=
  | VNull
  | VBool (b : bool)
  | VNum (n : Z)
  | VFrac (literal : jstring)
  | VStr (s : jstring)
  | VArr (xs : list value)
  | VObj (ms : list (jstring * value)).

(** ** JSON.stringify *)

Definition hex_digit (n : N) : N :=
  if (n <? 10)%N then (48 + n)%N else (87 + n)%N.

(** Four lower-case hexadecimal digits of a code unit. *)
Definition hex4 (c : N) : jstring :=
  [ hex_digit ((c / 4096) mod 16); hex_digit ((c / 256) mod 16);
    hex_digit ((c / 16) mod 16); hex_digit (c mod 16) ]%N.

(** [\uXXXX] *)
Definition unicode_escape (c : N) : jstring :=
  92%N :: 117%N :: hex4 c.

(** The two-character escapes of QuoteJSONString: the letter that follows
    the backslash for backspace, tab, line feed, form feed, carriage
    return, the double quote and the backslash. *)
Definition escape_short (c : N) : option N :=
  if (c =? 8)%N then Some 98%N
  else if (c =? 9)%N then Some 116%N
  else if (c =? 10)%N then Some 110%N
  else if (c =? 12)%N then Some 102%N
  else if (c =? 13)%N then Some 114%N
  else if (c =? 34)%N then Some 34%N
  else if (c =? 92)%N then Some 92%N
  else None.

Definition is_lead_surrogate (c : N) : bool :=
  (55296 <=? c)%N && (c <=? 56319)%N.

Definition is_trail_surrogate (c : N) : bool :=
  (56320 <=? c)%N && (c <=? 57343)%N.

(** The characters between the quotes.  Control characters and lone
    surrogates are written as [\uXXXX]; a lead surrogate followed by a
    trail surrogate is one code point and is written as it is. *)
Fixpoint quote_units (s : jstring) : jstring :=
  match s with
  | [] => []
  | c :: rest =>
    match escape_short c with
    | Some e => 92%N :: e :: quote_units rest
    | None =>
      if (c <? 32)%N then unicode_escape c ++ quote_units rest
      else if is_lead_surrogate c then
        match rest with
        | d :: rest' =>
          if is_trail_surrogate d then c :: d :: quote_units rest'
          else unicode_escape c ++ quote_units rest
        | [] => unicode_escape c
        end
      else if is_trail_surrogate c then unicode_escape c ++ quote_units rest
      else c :: quote_units rest
    end
  end.

Definition quote (s : jstring) : jstring :=
  34%N :: quote_units s ++ [34%N].

Fixpoint digits (u : Decimal.uint) : jstring :=
  match u with
  | Decimal.Nil => []
  | Decimal.D0 u => 48%N :: digits u
  | Decimal.D1 u => 49%N :: digits u
  | Decimal.D2 u => 50%N :: digits u
  | Decimal.D3 u => 51%N :: digits u
  | Decimal.D4 u => 52%N :: digits u
  | Decimal.D5 u => 53%N :: digits u
  | Decimal.D6 u => 54%N :: digits u
  | Decimal.D7 u => 55%N :: digits u
  | Decimal.D8 u => 56%N :: digits u
  | Decimal.D9 u => 57%N :: digits u
  end.

(** Number::toString for an integer: its decimal digits, with a minus sign
    when negative (JavaScript switches to exponent notation from 10^21
    on; the cart's amounts are far below). *)
Definition number_to_string (n : Z) : jstring :=
  match Z.to_int n with
  | Decimal.Pos u => digits u
  | Decimal.Neg u => 45%N :: digits u
  end.

Fixpoint join_comma (parts : list jstring) : jstring :=
  match parts with
  | [] => []
  | p :: ps => p ++ match ps with
                    | [] => []
                    | _ :: _ => 44%N :: join_comma ps
                    end
  end.

(** [JSON.stringify(v)] without indentation. *)
Fixpoint JSON_stringify (v : value) : jstring :=
  match v with
  | VNull => lit "null"
  | VBool true => lit "true"
  | VBool false => lit "false"
  | VNum n => number_to_string n
  | VFrac literal => literal
  | VStr s => quote s
  | VArr xs => 91%N :: join_comma (map JSON_stringify xs) ++ [93%N]
  | VObj ms =>
    123%N :: join_comma (map (fun m => quote (fst m) ++ 58%N :: JSON_stringify (snd m)) ms)
         ++ [125%N]
  end.

(** ** JSON.parse *)

Definition is_ws (c : N) : bool :=
  (c =? 32)%N || (c =? 9)%N || (c =? 10)%N || (c =? 13)%N.

Fixpoint skip_ws (s : jstring) : jstring :=
  match s with
  | [] => []
  | c :: r => if is_ws c then skip_ws r else s
  end.

Definition unhex (c : N) : option N :=
  if (48 <=? c)%N && (c <=? 57)%N then Some (c - 48)%N
  else if (97 <=? c)%N && (c <=? 102)%N then Some (c - 87)%N
  else if (65 <=? c)%N && (c <=? 70)%N then Some (c - 55)%N
  else None.

Definition unhex4 (h1 h2 h3 h4 : N) : option N :=
  a ← unhex h1; b ← unhex h2; c ← unhex h3; d ← unhex h4;
  Some (a * 4096 + b * 256 + c * 16 + d)%N.

(** The character denoted by the letter after a backslash. *)
Definition unescape (e : N) : option N :=
  if (e =? 34)%N then Some 34%N
  else if (e =? 92)%N then Some 92%N
  else if (e =? 47)%N then Some 47%N
  else if (e =? 98)%N then Some 8%N
  else if (e =? 102)%N then Some 12%N
  else if (e =? 110)%N then Some 10%N
  else if (e =? 114)%N then Some 13%N
  else if (e =? 116)%N then Some 9%N
  else None.

Definition push_unit (c : N) (r : option (jstring * jstring)) : option (jstring * jstring) :=
  match r with
  | Some (str, rest) => Some (c :: str, rest)
  | None => None
  end.

(** The characters of a string literal after its opening quote, up to and
    including the closing quote; the result is the string and the rest of
    the input. *)
Fixpoint parse_chars (s : jstring) : option (jstring * jstring) :=
  match s with
  | [] => None
  | c :: r =>
    if (c =? 34)%N then Some ([], r)
    else if (c =? 92)%N then
      match r with
      | [] => None
      | e :: r1 =>
        if (e =? 117)%N then
          match r1 with
          | h1 :: h2 :: h3 :: h4 :: r2 =>
            match unhex4 h1 h2 h3 h4 with
            | Some u => push_unit u (parse_chars r2)
            | None => None
            end
          | _ => None
          end
        else
          match unescape e with
          | Some u => push_unit u (parse_chars r1)
          | None => None
          end
      end
    else if (c <? 32)%N then None
    else push_unit c (parse_chars r)
  end.

Definition is_digit (c : N) : bool := (48 <=? c)%N && (c <=? 57)%N.

(** The longest prefix of digits, and what follows it. *)
Fixpoint span_digits (s : jstring) : jstring * jstring :=
  match s with
  | [] => ([], [])
  | c :: r =>
    if is_digit c then let '(ds, rest) := span_digits r in (c :: ds, rest)
    else ([], s)
  end.

Fixpoint uint_of_digits (ds : jstring) : Decimal.uint :=
  match ds with
  | [] => Decimal.Nil
  | c :: r =>
    let u := uint_of_digits r in
    if (c =? 48)%N then Decimal.D0 u
    else if (c =? 49)%N then Decimal.D1 u
    else if (c =? 50)%N then Decimal.D2 u
    else if (c =? 51)%N then Decimal.D3 u
    else if (c =? 52)%N then Decimal.D4 u
    else if (c =? 53)%N then Decimal.D5 u
    else if (c =? 54)%N then Decimal.D6 u
    else if (c =? 55)%N then Decimal.D7 u
    else if (c =? 56)%N then Decimal.D8 u
    else Decimal.D9 u
  end.

(** An optional fraction: a dot and at least one digit. *)
Definition lex_frac (s : jstring) : option (jstring * jstring) :=
  match s with
  | c :: r =>
    if (c =? 46)%N then
      let '(ds, rest) := span_digits r in
      if falsy ds then None else Some (c :: ds, rest)
    else Some ([], s)
  | [] => Some ([], s)
  end.

(** An optional exponent: [e] or [E], an optional sign, at least one digit. *)
Definition lex_exp (s : jstring) : option (jstring * jstring) :=
  match s with
  | c :: r =>
    if (c =? 101)%N || (c =? 69)%N then
      let '(sign, r1) :=
        match r with
        | g :: r' => if (g =? 43)%N || (g =? 45)%N then ([g], r') else ([], r)
        | [] => ([], r)
        end in
      let '(ds, rest) := span_digits r1 in
      if falsy ds then None else Some (c :: sign ++ ds, rest)
    else Some ([], s)
  | [] => Some ([], s)
  end.

(** A JSON number.  An integer literal becomes [VNum]; a literal with a
    fraction or an exponent is kept as [VFrac]. *)
Definition parse_number (s : jstring) : option (value * jstring) :=
  let '(sign, s1) :=
    match s with
    | c :: r => if (c =? 45)%N then ([c], r) else ([], s)
    | [] => ([], s)
    end in
  let '(ds, s2) := span_digits s1 in
  match ds with
  | [] => None
  | d :: ds' =>
    if (d =? 48)%N && negb (falsy ds') then None
    else
      '(fr, s3) ← lex_frac s2;
      '(ex, s4) ← lex_exp s3;
      if falsy fr && falsy ex then
        let u := uint_of_digits ds in
        Some (VNum (Z.of_int (if falsy sign then Decimal.Pos u else Decimal.Neg u)), s4)
      else Some (VFrac (sign ++ ds ++ fr ++ ex), s4)
  end.

(** Recursive descent over the text.  [fuel] bounds the number of nested
    calls; [JSON_parse] below supplies enough of it for any input
    (lemma [parse_value_fuel]). *)
Fixpoint parse_value (fuel : nat) (s : jstring) : option (value * jstring) :=
  match fuel with
  | O => None
  | S fuel =>
    match skip_ws s with
    | [] => None
    | c :: r =>
      if (c =? 34)%N then
        '(str, r') ← parse_chars r; Some (VStr str, r')
      else if (c =? 91)%N then
        match skip_ws r with
        | d :: r' =>
          if (d =? 93)%N then Some (VArr [], r')
          else '(xs, r'') ← parse_elements fuel r; Some (VArr xs, r'')
        | [] => None
        end
      else if (c =? 123)%N then
        match skip_ws r with
        | d :: r' =>
          if (d =? 125)%N then Some (VObj [], r')
          else '(ms, r'') ← parse_members fuel r; Some (VObj ms, r'')
        | [] => None
        end
      else if startsWith (c :: r) (lit "true") then Some (VBool true, drop 4 (c :: r))
      else if startsWith (c :: r) (lit "false") then Some (VBool false, drop 5 (c :: r))
      else if startsWith (c :: r) (lit "null") then Some (VNull, drop 4 (c :: r))
      else parse_number (c :: r)
    end
  end
with parse_elements (fuel : nat) (s : jstring) : option (list value * jstring) :=
  match fuel with
  | O => None
  | S fuel =>
    '(v, r) ← parse_value fuel s;
    match skip_ws r with
    | c :: r' =>
      if (c =? 44)%N then '(vs, r'') ← parse_elements fuel r'; Some (v :: vs, r'')
      else if (c =? 93)%N then Some ([v], r')
      else None
    | [] => None
    end
  end
with parse_members (fuel : nat) (s : jstring) : option (list (jstring * value) * jstring) :=
  match fuel with
  | O => None
  | S fuel =>
    match skip_ws s with
    | c :: r =>
      if (c =? 34)%N then
        '(k, r1) ← parse_chars r;
        match skip_ws r1 with
        | c1 :: r2 =>
          if (c1 =? 58)%N then
            '(v, r3) ← parse_value fuel r2;
            match skip_ws r3 with
            | c3 :: r4 =>
              if (c3 =? 44)%N then '(ms, r5) ← parse_members fuel r4; Some ((k, v) :: ms, r5)
              else if (c3 =? 125)%N then Some ([(k, v)], r4)
              else None
            | [] => None
            end
          else None
        | [] => None
        end
      else None
    | [] => None
    end
  end.

(** ** Completions: normal results and thrown exceptions *)

Inductive error : Type :=
  | SyntaxError
  | TypeError
  | StorageError.

Inductive completion (A : Type) : Type :=
  | Normal (a : A)
  | Throw (e : error).
Arguments Normal {A} a.
Arguments Throw {A} e.

Definition bind_completion {A B} (m : completion A) (k : A -> completion B) : completion B :=
  match m with
  | Normal a => k a
  | Throw e => Throw e
  end.

(** [try { body } catch (e) { handler }] *)
Definition try_catch {A} (body : completion A) (handler : error -> completion A) : completion A :=
  match body with
  | Normal a => Normal a
  | Throw e => handler e
  end.

(** [JSON.parse(text)]: one value, optionally surrounded by white space;
    anything else throws a SyntaxError. *)
Definition JSON_parse (text : jstring) : completion value :=
  match parse_value (2 * length text + 2) text with
  | Some (v, rest) =>
    match skip_ws rest with
    | [] => Normal v
    | _ :: _ => Throw SyntaxError
    end
  | None => Throw SyntaxError
  end.

(** ** The cart as data *)

(** The product descriptor built by the click handler of [init]. *)
Module Product.
Record t : Type := make { id : jstring; title : jstring; price : Z; image : jstring }.
End Product.

Record CartItem : Type := mkItem {
  id : jstring;
  title : jstring;
  price : Z;
  image : jstring;
  quantity : Z
}.

Abbreviation Cart := (list CartItem).

(** The JavaScript object of a cart item, with its properties in the order
    in which [addToCart] creates them. *)
Definition item_value (x : CartItem) : value :=
  VObj [ (lit "id", VStr (id x)); (lit "title", VStr (title x));
         (lit "price", VNum (price x)); (lit "image", VStr (image x));
         (lit "quantity", VNum (quantity x)) ].

Definition cart_value (cart : Cart) : value :=
  VArr (map item_value cart).

(** The typed reading of a value: an object with exactly the five
    properties of a cart item, strings and integers where the cart has
    them.  Values of any other shape are outside the cart model. *)
Definition as_item (v : value) : option CartItem :=
  match v with
  | VObj [ (k1, VStr i); (k2, VStr t); (k3, VNum p); (k4, VStr im); (k5, VNum q) ] =>
    if bool_decide (k1 = lit "id") && bool_decide (k2 = lit "title")
       && bool_decide (k3 = lit "price") && bool_decide (k4 = lit "image")
       && bool_decide (k5 = lit "quantity")
    then Some (mkItem i t p im q)
    else None
  | _ => None
  end.

Definition as_cart (v : value) : option Cart :=
  match v with
  | VArr xs => mapM as_item xs
  | _ => None
  end.

(** ** The cart store (cart.js lines 7, 35-48) *)

Abbreviation Storage := (gmap (list N) (list N)).

Definition CART_KEY : jstring := lit "thinkers_shelf_cart_v2".

(** [localStorage.getItem(key)]: [None] is JavaScript's [null]. *)
Definition getItem (ls : Storage) (key : jstring) : completion (option jstring) :=
  Normal (ls !! key).

(** [localStorage.setItem(key, text)] *)
Definition setItem (ls : Storage) (key text : jstring) : Storage :=
  <[key := text]> ls.

(** The [try] block of [getCart], for any outcome of the storage read:
    [raw ? JSON.parse(raw) : []]. *)
Definition getCart_try (read : completion (option jstring)) : completion value :=
  bind_completion read (fun raw =>
    match raw with
    | Some text => if falsy text then Normal (VArr []) else JSON_parse text
    | None => Normal (VArr [])
    end).

(** The [catch] block of [getCart]: the error is logged and the empty
    array is returned. *)
Definition getCart_catch (e : error) : completion value :=
  Normal (VArr []).

Definition getCart_from (read : completion (option jstring)) : completion value :=
  try_catch (getCart_try read) getCart_catch.

Definition getCart (ls : Storage) : completion value :=
  getCart_from (getItem ls CART_KEY).

(** [saveCart(cart)]; the refresh of the count badges that follows it
    writes to the page only. *)
Definition saveCart (cart : value) (ls : Storage) : Storage :=
  setItem ls CART_KEY (JSON_stringify cart).

(** The cart a page finds in storage, when the stored value is a cart. *)
Definition load (ls : Storage) : option Cart :=
  match getCart ls with
  | Normal v => as_cart v
  | Throw _ => None
  end.

(** ** Mutations (cart.js lines 66-112, 213-216)

    Each mutation reads the cart with [getCart], changes it and writes it
    back with [saveCart].  The result is [None] when the stored value is
    not a cart of the model. *)

(** [cart.find((x) => x.id === key)]: the first match and its position;
    the position stands for the reference that [find] returns. *)
Definition find_by_id (key : jstring) (cart : Cart) : option (nat * CartItem) :=
  list_find (fun x => id x = key) cart.

Definition set_quantity (x : CartItem) (q : Z) : CartItem :=
  mkItem (id x) (title x) (price x) (image x) q.

(** [{...product, image: normalizePathForStorage(product.image), quantity: 1}] *)
Definition new_item (product : Product.t) : CartItem :=
  mkItem (Product.id product) (Product.title product) (Product.price product)
         (normalizePathForStorage (Product.image product)) 1.

(** The cart after lines 68-78 of [addToCart]. *)
Definition add_item (product : Product.t) (cart : Cart) : Cart :=
  match find_by_id (Product.id product) cart with
  | Some (i, existing) => <[i := set_quantity existing (quantity existing + 1)]> cart
  | None => cart ++ [new_item product]
  end.

Definition addToCart (product : Product.t) (ls : Storage) : option Storage :=
  cart ← load ls;
  Some (saveCart (cart_value (add_item product cart)) ls).

(** [getCart().filter((x) => x.id !== key)] *)
Definition remove_item (key : jstring) (cart : Cart) : Cart :=
  filter (fun x => id x ≠ key) cart.

Definition removeFromCart (key : jstring) (ls : Storage) : option Storage :=
  cart ← load ls;
  Some (saveCart (cart_value (remove_item key cart)) ls).

(** [item.quantity += delta; if (item.quantity < 1) item.quantity = 1;] *)
Definition adjust (q delta : Z) : Z :=
  let q' := (q + delta)%Z in
  if (q' <? 1)%Z then 1%Z else q'.

(** [updateQuantity] returns before [saveCart] when no item has the id. *)
Definition updateQuantity (key : jstring) (delta : Z) (ls : Storage) : option Storage :=
  cart ← load ls;
  match find_by_id key cart with
  | None => Some ls
  | Some (i, item) =>
    Some (saveCart (cart_value (<[i := set_quantity item (adjust (quantity item) delta)]> cart)) ls)
  end.

Definition clearCart (ls : Storage) : Storage :=
  saveCart (VArr []) ls.

(** ** The cart view (cart.js lines 119-170) *)






(** ** Notions used in the statements below *)

(** A value whose numbers are all integers. *)
Fixpoint integral (v : value) : bool :=
  match v with
  | VFrac _ => false
  | VArr xs => forallb integral xs
  | VObj ms => forallb (fun m => integral (snd m)) ms
  | _ => true
  end.

(** What may follow an integer literal for the literal to end there: the
    next character continues neither the digits nor the number. *)
Definition number_end (rest : jstring) : Prop :=
  match rest with
  | [] => True
  | c :: _ => is_digit c = false ∧ c ≠ 46%N ∧ c ≠ 101%N ∧ c ≠ 69%N
  end.

(** A stored image path that needs no parent-directory step removed. *)
Definition clean_image (path : jstring) : Prop :=
  startsWith path (lit "../") = false.

(** The text of one member of an object, as [JSON_stringify] writes it. *)
Definition member_text (m : jstring * value) : jstring :=
  quote (fst m) ++ 58%N :: JSON_stringify (snd m).

(** Parsing the text of [v] gives [v] back and stops right after it. *)
Definition roundtrips (v : value) : Prop :=
  ∀ fuel rest, 2 * length (JSON_stringify v) ≤ fuel → number_end rest →
    parse_value fuel (JSON_stringify v ++ rest) = Some (v, rest).




(** ** Sample descriptors and carts *)

Definition p_first : Product.t :=
  Product.make (lit "b1") (lit "First title") 1000 (lit "../assets/one.jpg").


Definition two_books : Cart :=
  [ mkItem (lit "a") (lit "A") 1000 (lit "assets/a.jpg") 2;
    mkItem (lit "b") (lit "B") 2500 (lit "assets/b.jpg") 1 ].

Definition p_stacked : Product.t :=
  Product.make (lit "b1") (lit "Title") 1000 (lit "../../assets/x.jpg").

Definition repeated_ids : Cart :=
  [ mkItem (lit "a") (lit "A") 1000 (lit "assets/a.jpg") 2;
    mkItem (lit "b") (lit "B") 2500 (lit "assets/b.jpg") 1;
    mkItem (lit "a") (lit "A again") 900 (lit "assets/a2.jpg") 4;
    mkItem (lit "c") (lit "C") 700 (lit "assets/c.jpg") 1 ].

(** * Properties *)

(** ** String quoting *)
Lemma unhex_hex_digit (n : N) : (n < 16)%N → unhex (hex_digit n) = Some n.
Proof.
  intros Hn. unfold unhex, hex_digit.
  destruct (n <? 10)%N eqn:E.
  - apply N.ltb_lt in E.
    replace ((48 <=? 48 + n)%N && (48 + n <=? 57)%N) with true
      by (symmetry; apply andb_true_iff; split; apply N.leb_le; lia).
    f_equal. lia.
  - apply N.ltb_ge in E.
    replace ((48 <=? 87 + n)%N && (87 + n <=? 57)%N) with false
      by (symmetry; apply andb_false_iff; right; apply N.leb_gt; lia).
    replace ((97 <=? 87 + n)%N && (87 + n <=? 102)%N) with true
      by (symmetry; apply andb_true_iff; split; apply N.leb_le; lia).
    f_equal. lia.
Qed.

Lemma unhex4_hex4 (c : N) :
  (c < 65536)%N →
  unhex4 (hex_digit ((c / 4096) mod 16)) (hex_digit ((c / 256) mod 16))
         (hex_digit ((c / 16) mod 16)) (hex_digit (c mod 16)) = Some c.
Proof.
  intros Hc. unfold unhex4.
  rewrite !unhex_hex_digit by (apply N.mod_lt; lia). simpl.
  f_equal.
  replace (c / 4096)%N with (c / 16 / 16 / 16)%N by (by rewrite !N.Div0.div_div).
  replace (c / 256)%N with (c / 16 / 16)%N by (by rewrite !N.Div0.div_div).
  pose proof (N.div_mod c 16 ltac:(lia)).
  pose proof (N.div_mod (c / 16) 16 ltac:(lia)).
  pose proof (N.div_mod (c / 16 / 16) 16 ltac:(lia)).
  pose proof (N.div_mod (c / 16 / 16 / 16) 16 ltac:(lia)).
  assert (c / 16 / 16 / 16 / 16 = 0)%N
    by (rewrite !N.Div0.div_div; apply N.div_small; lia).
  lia.
Qed.

Lemma parse_chars_u (h1 h2 h3 h4 : N) (t : jstring) :
  parse_chars (92%N :: 117%N :: h1 :: h2 :: h3 :: h4 :: t) =
  match unhex4 h1 h2 h3 h4 with
  | Some u => push_unit u (parse_chars t)
  | None => None
  end.
Proof. reflexivity. Qed.

Lemma parse_chars_unicode_escape (c : N) (t : jstring) :
  (c < 65536)%N →
  parse_chars (unicode_escape c ++ t) = push_unit c (parse_chars t).
Proof.
  intros Hc. unfold unicode_escape, hex4. cbn [app].
  by rewrite parse_chars_u, unhex4_hex4.
Qed.

Lemma parse_chars_plain (c : N) (t : jstring) :
  c ≠ 34%N → c ≠ 92%N → (32 <= c)%N →
  parse_chars (c :: t) = push_unit c (parse_chars t).
Proof.
  intros H1 H2 H3. simpl.
  rewrite (proj2 (N.eqb_neq c 34)), (proj2 (N.eqb_neq c 92)) by done.
  by rewrite (proj2 (N.ltb_ge c 32)).
Qed.

Lemma escape_short_None (c : N) :
  escape_short c = None → c ≠ 34%N ∧ c ≠ 92%N.
Proof.
  unfold escape_short. intros H.
  repeat case_match; try discriminate.
  split; by apply N.eqb_neq.
Qed.

Lemma parse_chars_short (c e : N) (t : jstring) :
  escape_short c = Some e →
  parse_chars (92%N :: e :: t) = push_unit c (parse_chars t).
Proof.
  unfold escape_short. intros H.
  repeat case_match; simplify_eq;
    match goal with E : (_ =? _)%N = true |- _ => apply N.eqb_eq in E; subst end;
    reflexivity.
Qed.

Lemma surrogate_bounds (c : N) :
  is_lead_surrogate c || is_trail_surrogate c = true →
  (c < 65536)%N ∧ c ≠ 34%N ∧ c ≠ 92%N ∧ (32 <= c)%N.
Proof.
  unfold is_lead_surrogate, is_trail_surrogate.
  rewrite orb_true_iff, !andb_true_iff, !N.leb_le. lia.
Qed.

Lemma parse_chars_quote_units_bounded (n : nat) :
  ∀ s rest, length s ≤ n →
    parse_chars (quote_units s ++ 34%N :: rest) = Some (s, rest).
Proof.
  induction n as [|n IH]; intros [|c s] rest Hlen; simpl in Hlen; try lia.
  - reflexivity.
  - reflexivity.
  - cbn [quote_units].
    destruct (escape_short c) as [e|] eqn:Hesc.
    { cbn [app]. rewrite (parse_chars_short c e) by done.
      by rewrite IH by lia. }
    destruct (escape_short_None c Hesc) as [Hq Hb].
    destruct (c <? 32)%N eqn:Hctl.
    { apply N.ltb_lt in Hctl. rewrite <- app_assoc.
      rewrite parse_chars_unicode_escape by lia.
      by rewrite IH by lia. }
    apply N.ltb_ge in Hctl.
    destruct (is_lead_surrogate c) eqn:Hlead.
    { destruct (surrogate_bounds c) as (Hc & _); [by rewrite Hlead|].
      destruct s as [|d s'].
      - rewrite parse_chars_unicode_escape by done. reflexivity.
      - destruct (is_trail_surrogate d) eqn:Htrail.
        + destruct (surrogate_bounds d) as (_ & Hd1 & Hd2 & Hd3);
            [by rewrite Htrail, orb_true_r|].
          cbn [app]. rewrite parse_chars_plain by done.
          rewrite parse_chars_plain by done.
          simpl in Hlen. by rewrite IH by lia.
        + rewrite <- app_assoc. rewrite parse_chars_unicode_escape by done.
          by rewrite IH by lia. }
    destruct (is_trail_surrogate c) eqn:Htrail.
    { destruct (surrogate_bounds c) as (Hc & _); [by rewrite Htrail, orb_true_r|].
      rewrite <- app_assoc. rewrite parse_chars_unicode_escape by done.
      by rewrite IH by lia. }
    cbn [app]. rewrite parse_chars_plain by done.
    by rewrite IH by lia.
Qed.

Lemma parse_chars_quote_units (s rest : jstring) :
  parse_chars (quote_units s ++ 34%N :: rest) = Some (s, rest).
Proof. by apply (parse_chars_quote_units_bounded (length s)). Qed.

(** ** Integer literals *)

Lemma digits_all_digit (u : Decimal.uint) : Forall (λ c, is_digit c = true) (digits u).
Proof. induction u; simpl; constructor; done. Qed.

Lemma span_digits_app (ds rest : jstring) :
  Forall (λ c, is_digit c = true) ds →
  match rest with [] => True | c :: _ => is_digit c = false end →
  span_digits (ds ++ rest) = (ds, rest).
Proof.
  intros Hds Hrest. induction Hds as [|c ds Hc _ IH]; simpl.
  - destruct rest as [|c r]; [done|]. simpl. by rewrite Hrest.
  - by rewrite Hc, IH.
Qed.

Lemma uint_of_digits_digits (u : Decimal.uint) : uint_of_digits (digits u) = u.
Proof. induction u; simpl; by rewrite ?IHu. Qed.

Lemma nzhead_not_D0 (u u' : Decimal.uint) : Decimal.nzhead u ≠ Decimal.D0 u'.
Proof. induction u; simpl; congruence. Qed.

Lemma to_uint_head (p : positive) :
  ∃ c ds, digits (Pos.to_uint p) = c :: ds ∧ is_digit c = true ∧ c ≠ 48%N.
Proof.
  pose proof (DecimalPos.Unsigned.to_of (Pos.to_uint p)) as Hn.
  rewrite DecimalPos.Unsigned.of_to in Hn. simpl in Hn.
  pose proof (DecimalPos.Unsigned.to_uint_nonzero p) as Hz.
  pose proof (DecimalPos.Unsigned.to_uint_nonnil p) as Hnil.
  destruct (Pos.to_uint p) as [|u|u|u|u|u|u|u|u|u|u]; try done;
    try (eexists _, _; split; [reflexivity|]; split; [reflexivity|]; discriminate).
  exfalso. unfold Decimal.unorm in Hn. simpl in Hn.
  destruct (Decimal.nzhead u) eqn:E; try discriminate.
  - injection Hn as Hn. subst u. by apply Hz.
  - by apply nzhead_not_D0 in E.
Qed.

Lemma is_digit_not_minus (c : N) : is_digit c = true → (c =? 45)%N = false.
Proof.
  unfold is_digit. rewrite andb_true_iff, !N.leb_le, N.eqb_neq. lia.
Qed.

Lemma lex_frac_end (rest : jstring) : number_end rest → lex_frac rest = Some ([], rest).
Proof.
  destruct rest as [|c r]; [done|]. intros (_ & H & _). simpl.
  by rewrite (proj2 (N.eqb_neq c 46)).
Qed.

Lemma lex_exp_end (rest : jstring) : number_end rest → lex_exp rest = Some ([], rest).
Proof.
  destruct rest as [|c r]; [done|]. intros (_ & _ & H1 & H2). simpl.
  by rewrite (proj2 (N.eqb_neq c 101)), (proj2 (N.eqb_neq c 69)).
Qed.

Lemma number_end_digit (rest : jstring) :
  number_end rest → match rest with [] => True | c :: _ => is_digit c = false end.
Proof. destruct rest; [done|]. by intros (? & _). Qed.

Lemma parse_number_unsigned (u : Decimal.uint) (d : N) (ds rest : jstring) :
  digits u = d :: ds → d ≠ 48%N ∨ ds = [] → number_end rest →
  parse_number (digits u ++ rest) = Some (VNum (Z.of_int (Decimal.Pos u)), rest).
Proof.
  intros Hu Hlead Hrest. unfold parse_number.
  pose proof (digits_all_digit u) as Hall.
  assert (Hd : is_digit d = true) by (rewrite Hu in Hall; by inversion Hall).
  assert (Hsign : match digits u ++ rest with
                  | c :: r => if (c =? 45)%N then ([c], r) else ([], digits u ++ rest)
                  | [] => ([], digits u ++ rest)
                  end = ([], digits u ++ rest)).
  { rewrite Hu. cbn [app]. by rewrite is_digit_not_minus. }
  rewrite Hsign.
  rewrite span_digits_app; [|done|by apply number_end_digit].
  rewrite Hu at 1.
  assert ((d =? 48)%N && negb (falsy ds) = false) as ->.
  { destruct Hlead as [H| ->]; [by rewrite (proj2 (N.eqb_neq d 48))|by rewrite andb_false_r]. }
  rewrite lex_frac_end by done. cbn [mbind option_bind].
  rewrite lex_exp_end by done. cbn [mbind option_bind falsy andb].
  by rewrite ?uint_of_digits_digits, <- ?Hu, ?uint_of_digits_digits.
Qed.

Lemma parse_number_negative (u : Decimal.uint) (d : N) (ds rest : jstring) :
  digits u = d :: ds → d ≠ 48%N ∨ ds = [] → number_end rest →
  parse_number (45%N :: digits u ++ rest) = Some (VNum (Z.of_int (Decimal.Neg u)), rest).
Proof.
  intros Hu Hlead Hrest. unfold parse_number.
  pose proof (digits_all_digit u) as Hall.
  cbn [N.eqb Pos.eqb].
  rewrite span_digits_app; [|done|by apply number_end_digit].
  rewrite Hu at 1.
  assert ((d =? 48)%N && negb (falsy ds) = false) as ->.
  { destruct Hlead as [H| ->]; [by rewrite (proj2 (N.eqb_neq d 48))|by rewrite andb_false_r]. }
  rewrite lex_frac_end by done. cbn [mbind option_bind].
  rewrite lex_exp_end by done. cbn [mbind option_bind falsy andb].
  by rewrite ?uint_of_digits_digits, <- ?Hu, ?uint_of_digits_digits.
Qed.

Lemma parse_number_to_string (n : Z) (rest : jstring) :
  number_end rest →
  parse_number (number_to_string n ++ rest) = Some (VNum n, rest).
Proof.
  intros Hrest. rewrite <- (DecimalZ.of_to n) at 2.
  unfold number_to_string. destruct n as [|p|p]; cbn [Z.to_int].
  - apply (parse_number_unsigned _ 48%N []); [done|by right|done].
  - destruct (to_uint_head p) as (c & ds & Hu & _ & Hc).
    apply (parse_number_unsigned _ c ds); [done|by left|done].
  - destruct (to_uint_head p) as (c & ds & Hu & _ & Hc).
    cbn [app]. apply (parse_number_negative _ c ds); [done|by left|done].
Qed.

Lemma number_to_string_head (n : Z) :
  ∃ c r, number_to_string n = c :: r ∧ (c = 45%N ∨ is_digit c = true).
Proof.
  unfold number_to_string. destruct n as [|p|p]; cbn [Z.to_int].
  - by exists 48%N, []; auto.
  - destruct (to_uint_head p) as (c & ds & Hu & Hc & _). exists c, ds. auto.
  - eexists _, _. split; [reflexivity|by left].
Qed.

(** ** Values: text then parse *)

Lemma value_nested_ind (P : value → Prop) :
  P VNull → (∀ b, P (VBool b)) → (∀ n, P (VNum n)) → (∀ l, P (VFrac l)) →
  (∀ s, P (VStr s)) →
  (∀ xs, Forall P xs → P (VArr xs)) →
  (∀ ms, Forall (λ m, P (snd m)) ms → P (VObj ms)) →
  ∀ v, P v.
Proof.
  intros Hnull Hbool Hnum Hfrac Hstr Harr Hobj.
  fix IH 1. intros [ |b|n|l|s|xs|ms].
  - exact Hnull.
  - apply Hbool.
  - apply Hnum.
  - apply Hfrac.
  - apply Hstr.
  - apply Harr. induction xs as [|x xs IHxs]; constructor; [apply IH | exact IHxs].
  - apply Hobj. induction ms as [|m ms IHms]; constructor; [apply IH | exact IHms].
Qed.

Lemma parse_value_S (f : nat) (s : jstring) :
  parse_value (S f) s =
  match skip_ws s with
  | [] => None
  | c :: r =>
    if (c =? 34)%N then
      '(str, r') ← parse_chars r; Some (VStr str, r')
    else if (c =? 91)%N then
      match skip_ws r with
      | d :: r' =>
        if (d =? 93)%N then Some (VArr [], r')
        else '(xs, r'') ← parse_elements f r; Some (VArr xs, r'')
      | [] => None
      end
    else if (c =? 123)%N then
      match skip_ws r with
      | d :: r' =>
        if (d =? 125)%N then Some (VObj [], r')
        else '(ms, r'') ← parse_members f r; Some (VObj ms, r'')
      | [] => None
      end
    else if startsWith (c :: r) (lit "true") then Some (VBool true, drop 4 (c :: r))
    else if startsWith (c :: r) (lit "false") then Some (VBool false, drop 5 (c :: r))
    else if startsWith (c :: r) (lit "null") then Some (VNull, drop 4 (c :: r))
    else parse_number (c :: r)
  end.
Proof. reflexivity. Qed.

Lemma parse_elements_S (f : nat) (s : jstring) :
  parse_elements (S f) s =
  '(v, r) ← parse_value f s;
  match skip_ws r with
  | c :: r' =>
    if (c =? 44)%N then '(vs, r'') ← parse_elements f r'; Some (v :: vs, r'')
    else if (c =? 93)%N then Some ([v], r')
    else None
  | [] => None
  end.
Proof. reflexivity. Qed.

Lemma parse_members_S (f : nat) (s : jstring) :
  parse_members (S f) s =
  match skip_ws s with
  | c :: r =>
    if (c =? 34)%N then
      '(k, r1) ← parse_chars r;
      match skip_ws r1 with
      | c1 :: r2 =>
        if (c1 =? 58)%N then
          '(v, r3) ← parse_value f r2;
          match skip_ws r3 with
          | c3 :: r4 =>
            if (c3 =? 44)%N then '(ms, r5) ← parse_members f r4; Some ((k, v) :: ms, r5)
            else if (c3 =? 125)%N then Some ([(k, v)], r4)
            else None
          | [] => None
          end
        else None
      | [] => None
      end
    else None
  | [] => None
  end.
Proof. reflexivity. Qed.

Lemma parse_value_number (f : nat) (c : N) (t : jstring) :
  c = 45%N ∨ is_digit c = true →
  parse_value (S f) (c :: t) = parse_number (c :: t).
Proof.
  intros [->|Hc]; [reflexivity|].
  assert (c = 48 ∨ c = 49 ∨ c = 50 ∨ c = 51 ∨ c = 52 ∨ c = 53 ∨ c = 54 ∨ c = 55
          ∨ c = 56 ∨ c = 57)%N as Hcases.
  { unfold is_digit in Hc. rewrite andb_true_iff, !N.leb_le in Hc. lia. }
  repeat (destruct Hcases as [->|Hcases]; [reflexivity|]). by subst.
Qed.

(** The first character of a serialised value starts a value: it is not
    white space and does not close an array. *)
Lemma stringify_head (v : value) :
  integral v = true →
  ∃ c r, JSON_stringify v = c :: r ∧ is_ws c = false ∧ c ≠ 93%N.
Proof.
  destruct v as [ |[]|n|l|s|xs|ms]; intros Hv; try discriminate;
    try (eexists _, _; split; [reflexivity|]; split; [reflexivity|discriminate]).
  destruct (number_to_string_head n) as (c & r & Hn & Hc).
  exists c, r. split; [done|].
  destruct Hc as [->|Hc]; [by split|].
  unfold is_digit in Hc. rewrite andb_true_iff, !N.leb_le in Hc.
  split; [|lia]. unfold is_ws.
  rewrite !orb_false_iff, !N.eqb_neq. lia.
Qed.

Lemma skip_ws_head (c : N) (r : jstring) : is_ws c = false → skip_ws (c :: r) = c :: r.
Proof. intros H. simpl. by rewrite H. Qed.

Lemma parse_elements_join (xs : list value) :
  xs ≠ [] → Forall roundtrips xs →
  ∀ fuel rest, 2 * length (join_comma (map JSON_stringify xs)) + 1 ≤ fuel →
    parse_elements fuel (join_comma (map JSON_stringify xs) ++ 93%N :: rest) = Some (xs, rest).
Proof.
  induction xs as [|x xs IH]; [done|]. intros _ Hall fuel rest Hfuel.
  apply Forall_cons in Hall as [Hx Hxs].
  destruct fuel as [|f]; [lia|]. rewrite parse_elements_S.
  cbn [map join_comma] in *. rewrite length_app in Hfuel.
  destruct xs as [|y ys].
  - cbn [map]. rewrite app_nil_r.
    rewrite Hx; [|simpl in Hfuel; lia|by repeat split].
    reflexivity.
  - set (tail := join_comma (map JSON_stringify (y :: ys))) in *.
    cbn [map] in Hfuel |- *. fold tail in Hfuel |- *. 
    cbn [length] in Hfuel.
    rewrite <- app_assoc. cbn [app].
    rewrite Hx; [|lia|by repeat split].
    cbn [mbind option_bind]. cbn [skip_ws is_ws N.eqb Pos.eqb orb].
    rewrite IH; [done|done|done|lia].
Qed.

Lemma parse_members_join (ms : list (jstring * value)) :
  ms ≠ [] → Forall (λ m, roundtrips (snd m)) ms →
  ∀ fuel rest, 2 * length (join_comma (map member_text ms)) + 1 ≤ fuel →
    parse_members fuel (join_comma (map member_text ms) ++ 125%N :: rest) = Some (ms, rest).
Proof.
  induction ms as [|[k v] ms IH]; [done|]. intros _ Hall fuel rest Hfuel.
  apply Forall_cons in Hall as [Hv Hms]. cbn [snd] in Hv.
  destruct fuel as [|f]; [lia|]. rewrite parse_members_S.
  cbn [map join_comma] in *. rewrite length_app in Hfuel.
  unfold member_text at 1 in Hfuel. unfold member_text at 1.
  cbn [fst snd] in *. unfold quote in *.
  rewrite length_app in Hfuel. cbn [length] in Hfuel.
  rewrite <- !app_assoc. cbn [app].
  rewrite skip_ws_head by done. cbn [N.eqb Pos.eqb].
  rewrite <- app_assoc. cbn [app].
  rewrite parse_chars_quote_units. cbn [mbind option_bind].
  rewrite skip_ws_head by done. cbn [N.eqb Pos.eqb].
  destruct ms as [|m' ms'].
  - rewrite Hv; [|lia|by repeat split]. reflexivity.
  - set (tail := join_comma (map member_text (m' :: ms'))) in *.
    cbn [map] in Hfuel |- *. fold tail in Hfuel |- *.
    cbn [length] in Hfuel. cbn [app].
    rewrite Hv; [|lia|by repeat split].
    cbn [mbind option_bind]. cbn [skip_ws is_ws N.eqb Pos.eqb orb].
    rewrite IH; [done|done|done|lia].
Qed.

Lemma parse_value_stringify (v : value) : integral v = true → roundtrips v.
Proof.
  induction v as [ |b|n|l|s|xs IH|ms IH] using value_nested_ind;
    intros Hint fuel rest Hfuel Hrest.
  - destruct fuel as [|f]; [simpl in Hfuel; lia|]. reflexivity.
  - destruct fuel as [|f]; [destruct b; simpl in Hfuel; lia|]. by destruct b.
  - destruct (number_to_string_head n) as (c & r & Hn & Hc).
    cbn [JSON_stringify] in *.
    destruct fuel as [|f]; [rewrite Hn in Hfuel; simpl in Hfuel; lia|].
    rewrite <- parse_number_to_string by done.
    rewrite Hn. by apply parse_value_number.
  - discriminate.
  - cbn [JSON_stringify] in *. unfold quote in *.
    destruct fuel as [|f]; [simpl in Hfuel; lia|].
    rewrite parse_value_S. cbn [app]. rewrite skip_ws_head by done.
    cbn [N.eqb Pos.eqb]. rewrite <- app_assoc. cbn [app].
    by rewrite parse_chars_quote_units.
  - cbn [JSON_stringify integral] in *.
    destruct fuel as [|f]; [simpl in Hfuel; lia|].
    destruct xs as [|x xs]; [reflexivity|].
    assert (Hall : Forall roundtrips (x :: xs)).
    { apply Forall_forall. intros y Hy.
      rewrite Forall_forall in IH. apply IH; [done|].
      rewrite forallb_forall in Hint. apply Hint. by apply list_elem_of_In. }
    destruct (stringify_head x) as (c & r & Hx & Hws & Hc).
    { cbn [forallb] in Hint. by apply andb_true_iff in Hint as [? _]. }
    rewrite parse_value_S. cbn [app]. rewrite skip_ws_head by done.
    cbn [N.eqb Pos.eqb]. rewrite <- app_assoc. cbn [app].
    cbn [length] in Hfuel. rewrite length_app in Hfuel.
    rewrite parse_elements_join; [|done|done|lia].
    cbn [map join_comma]. rewrite Hx. cbn [app].
    rewrite skip_ws_head by done.
    by rewrite (proj2 (N.eqb_neq c 93)).
  - cbn [JSON_stringify integral] in *.
    destruct fuel as [|f]; [simpl in Hfuel; lia|].
    destruct ms as [|[k x] ms]; [reflexivity|].
    change (map _ ((k, x) :: ms)) with (map member_text ((k, x) :: ms)) in *.
    assert (Hall : Forall (λ m, roundtrips (snd m)) ((k, x) :: ms)).
    { apply Forall_forall. intros y Hy.
      rewrite Forall_forall in IH. apply IH; [done|].
      rewrite forallb_forall in Hint. apply Hint. by apply list_elem_of_In. }
    rewrite parse_value_S. cbn [app]. rewrite skip_ws_head by done.
    cbn [N.eqb Pos.eqb]. rewrite <- app_assoc. cbn [app].
    cbn [length] in Hfuel. rewrite length_app in Hfuel.
    rewrite parse_members_join; [|done|done|lia].
    cbn [map join_comma]. unfold member_text at 1. unfold quote. cbn [app].
    by rewrite skip_ws_head by done.
Qed.

Lemma stringify_nonempty (v : value) : integral v = true → falsy (JSON_stringify v) = false.
Proof.
  intros Hv. destruct (stringify_head v Hv) as (c & r & -> & _). done.
Qed.

Theorem JSON_parse_stringify (v : value) :
  integral v = true → JSON_parse (JSON_stringify v) = Normal v.
Proof.
  intros Hv. unfold JSON_parse.
  pose proof (parse_value_stringify v Hv (2 * length (JSON_stringify v) + 2) []) as H.
  rewrite app_nil_r in H. rewrite H; [done|lia|done].
Qed.

(** ** The parser consumes its input, and its fuel suffices *)

Lemma skip_ws_length (s : jstring) : length (skip_ws s) ≤ length s.
Proof. induction s as [|c s IH]; simpl; [done|]. destruct (is_ws c); simpl; lia. Qed.

Lemma skip_ws_cons_length (s : jstring) (c : N) (r : jstring) :
  skip_ws s = c :: r → length r < length s.
Proof. intros H. pose proof (skip_ws_length s) as Hl. rewrite H in Hl. simpl in Hl. lia. Qed.

Lemma push_unit_Some (u : N) (o : option (jstring * jstring)) (k r : jstring) :
  push_unit u o = Some (k, r) → ∃ k', o = Some (k', r) ∧ k = u :: k'.
Proof. destruct o as [[k' r']|]; simpl; [|done]. intros [= <- <-]. eauto. Qed.

Lemma parse_chars_length_bounded (n : nat) :
  ∀ s k r, length s ≤ n → parse_chars s = Some (k, r) → length r ≤ length s.
Proof.
  induction n as [|n IH]; intros [|c s] k r Hn; simpl in Hn; try lia; try done.
  intros H. simpl in H.
  destruct (c =? 34)%N; [injection H as _ <-; simpl; lia|].
  destruct (c =? 92)%N.
  - destruct s as [|e r1]; [done|].
    destruct (e =? 117)%N.
    + destruct r1 as [|h1 [|h2 [|h3 [|h4 r2]]]]; try done.
      destruct (unhex4 h1 h2 h3 h4); [|done].
      apply push_unit_Some in H as (k' & H & _).
      apply IH in H; simpl in *; lia.
    + destruct (unescape e); [|done].
      apply push_unit_Some in H as (k' & H & _).
      apply IH in H; simpl in *; lia.
  - destruct (c <? 32)%N; [done|].
    apply push_unit_Some in H as (k' & H & _).
    apply IH in H; simpl in *; lia.
Qed.

Lemma parse_chars_length (s k r : jstring) :
  parse_chars s = Some (k, r) → length r ≤ length s.
Proof. by apply (parse_chars_length_bounded (length s)). Qed.

Lemma span_digits_length (s ds r : jstring) :
  span_digits s = (ds, r) → length r ≤ length s.
Proof.
  revert ds r. induction s as [|c s IH]; intros ds r; simpl.
  - intros [= _ <-]. done.
  - destruct (is_digit c).
    + destruct (span_digits s) as [ds' r'] eqn:E. intros [= _ <-].
      specialize (IH _ _ eq_refl). lia.
    + intros [= _ <-]. done.
Qed.

Lemma lex_frac_length (s fr r : jstring) :
  lex_frac s = Some (fr, r) → length r ≤ length s.
Proof.
  unfold lex_frac. destruct s as [|c s]; [by intros [= _ <-]|].
  destruct (c =? 46)%N; [|by intros [= _ <-]].
  destruct (span_digits s) as [ds r'] eqn:E. apply span_digits_length in E.
  destruct (falsy ds); [done|]. intros [= _ <-]. simpl. lia.
Qed.

Lemma lex_exp_length (s ex r : jstring) :
  lex_exp s = Some (ex, r) → length r ≤ length s.
Proof.
  unfold lex_exp. destruct s as [|c s]; [by intros [= _ <-]|].
  destruct ((c =? 101)%N || (c =? 69)%N); [|by intros [= _ <-]].
  destruct (match s with
            | [] => ([], s)
            | g :: r' => if (g =? 43)%N || (g =? 45)%N then ([g], r') else ([], s)
            end) as [sign r1] eqn:Hsign.
  assert (length r1 ≤ length s) as Hr1.
  { destruct s as [|g r']; [by injection Hsign as _ <-|].
    destruct ((g =? 43)%N || (g =? 45)%N); injection Hsign as _ <-; simpl; lia. }
  destruct (span_digits r1) as [ds r'] eqn:E. apply span_digits_length in E.
  destruct (falsy ds); [done|]. intros [= _ <-]. simpl. lia.
Qed.

Lemma parse_number_length (s : jstring) (v : value) (r : jstring) :
  parse_number s = Some (v, r) → length r ≤ length s.
Proof.
  unfold parse_number.
  destruct (match s with
            | [] => ([], s)
            | c :: r0 => if (c =? 45)%N then ([c], r0) else ([], s)
            end) as [sign s1] eqn:Hsign.
  assert (length s1 ≤ length s) as Hs1.
  { destruct s as [|c r0]; [by injection Hsign as _ <-|].
    destruct (c =? 45)%N; injection Hsign as _ <-; simpl; lia. }
  destruct (span_digits s1) as [ds s2] eqn:E. apply span_digits_length in E.
  destruct ds as [|d ds']; [done|].
  destruct ((d =? 48)%N && negb (falsy ds')); [done|].
  destruct (lex_frac s2) as [[fr s3]|] eqn:Hfr; [|done].
  apply lex_frac_length in Hfr. cbn [mbind option_bind].
  destruct (lex_exp s3) as [[ex s4]|] eqn:Hex; [|done].
  apply lex_exp_length in Hex. cbn [mbind option_bind].
  destruct (falsy fr && falsy ex); intros [= _ <-]; lia.
Qed.

Lemma parse_length (f : nat) :
  (∀ s v r, parse_value f s = Some (v, r) → length r ≤ length s) ∧
  (∀ s vs r, parse_elements f s = Some (vs, r) → length r ≤ length s) ∧
  (∀ s ms r, parse_members f s = Some (ms, r) → length r ≤ length s).
Proof.
  induction f as [|f (IHv & IHe & IHm)]; [done|]. split_and!.
  - intros s v r. rewrite parse_value_S.
    destruct (skip_ws s) as [|c t] eqn:Hs; [done|].
    apply skip_ws_cons_length in Hs.
    destruct (c =? 34)%N.
    { destruct (parse_chars t) as [[str r']|] eqn:E; [|done].
      apply parse_chars_length in E. intros [= _ <-]. lia. }
    destruct (c =? 91)%N.
    { destruct (skip_ws t) as [|d r'] eqn:Ht; [done|].
      apply skip_ws_cons_length in Ht.
      destruct (d =? 93)%N; [intros [= _ <-]; lia|].
      destruct (parse_elements f t) as [[xs r'']|] eqn:E; [|done].
      apply IHe in E. intros [= _ <-]. lia. }
    destruct (c =? 123)%N.
    { destruct (skip_ws t) as [|d r'] eqn:Ht; [done|].
      apply skip_ws_cons_length in Ht.
      destruct (d =? 125)%N; [intros [= _ <-]; lia|].
      destruct (parse_members f t) as [[ms r'']|] eqn:E; [|done].
      apply IHm in E. intros [= _ <-]. lia. }
    destruct (startsWith (c :: t) (lit "true")).
    { intros [= _ <-]. rewrite length_drop. simpl. lia. }
    destruct (startsWith (c :: t) (lit "false")).
    { intros [= _ <-]. rewrite length_drop. simpl. lia. }
    destruct (startsWith (c :: t) (lit "null")).
    { intros [= _ <-]. rewrite length_drop. simpl. lia. }
    intros E. apply parse_number_length in E. simpl in E. lia.
  - intros s vs r. rewrite parse_elements_S.
    destruct (parse_value f s) as [[v t]|] eqn:E; [|done].
    apply IHv in E. cbn [mbind option_bind].
    destruct (skip_ws t) as [|c r'] eqn:Ht; [done|].
    apply skip_ws_cons_length in Ht.
    destruct (c =? 44)%N.
    { destruct (parse_elements f r') as [[vs' r'']|] eqn:E'; [|done].
      apply IHe in E'. intros [= _ <-]. lia. }
    destruct (c =? 93)%N; [|done]. intros [= _ <-]. lia.
  - intros s ms r. rewrite parse_members_S.
    destruct (skip_ws s) as [|c t] eqn:Hs; [done|].
    apply skip_ws_cons_length in Hs.
    destruct (c =? 34)%N; [|done].
    destruct (parse_chars t) as [[k r1]|] eqn:E; [|done].
    apply parse_chars_length in E. cbn [mbind option_bind].
    destruct (skip_ws r1) as [|c1 r2] eqn:H1; [done|].
    apply skip_ws_cons_length in H1.
    destruct (c1 =? 58)%N; [|done].
    destruct (parse_value f r2) as [[v r3]|] eqn:E2; [|done].
    apply IHv in E2. cbn [mbind option_bind].
    destruct (skip_ws r3) as [|c3 r4] eqn:H3; [done|].
    apply skip_ws_cons_length in H3.
    destruct (c3 =? 44)%N.
    { destruct (parse_members f r4) as [[ms' r5]|] eqn:E'; [|done].
      apply IHm in E'. intros [= _ <-]. lia. }
    destruct (c3 =? 125)%N; [|done]. intros [= _ <-]. lia.
Qed.

Lemma parse_fuel_stable (f : nat) :
  (∀ s f', 2 * length s + 1 ≤ f → f ≤ f' → parse_value f' s = parse_value f s) ∧
  (∀ s f', 2 * length s + 2 ≤ f → f ≤ f' → parse_elements f' s = parse_elements f s) ∧
  (∀ s f', 2 * length s + 2 ≤ f → f ≤ f' → parse_members f' s = parse_members f s).
Proof.
  induction f as [|f (IHv & IHe & IHm)]; [split_and!; intros; lia|]. split_and!.
  - intros s [|f'] Hs Hf; [lia|]. rewrite !parse_value_S.
    destruct (skip_ws s) as [|c t] eqn:Hsk; [done|].
    apply skip_ws_cons_length in Hsk.
    rewrite (IHe t f'), (IHm t f') by lia. done.
  - intros s [|f'] Hs Hf; [lia|]. rewrite !parse_elements_S.
    rewrite (IHv s f') by lia.
    destruct (parse_value f s) as [[v t]|] eqn:E; [|done].
    apply (proj1 (parse_length f)) in E. cbn [mbind option_bind].
    destruct (skip_ws t) as [|c r'] eqn:Ht; [done|].
    apply skip_ws_cons_length in Ht.
    rewrite (IHe r' f') by lia. done.
  - intros s [|f'] Hs Hf; [lia|]. rewrite !parse_members_S.
    destruct (skip_ws s) as [|c t] eqn:Hsk; [done|].
    apply skip_ws_cons_length in Hsk.
    destruct (c =? 34)%N; [|done].
    destruct (parse_chars t) as [[k r1]|] eqn:E; [|done].
    apply parse_chars_length in E. cbn [mbind option_bind].
    destruct (skip_ws r1) as [|c1 r2] eqn:H1; [done|].
    apply skip_ws_cons_length in H1.
    destruct (c1 =? 58)%N; [|done].
    rewrite (IHv r2 f') by lia.
    destruct (parse_value f r2) as [[v r3]|] eqn:E2; [|done].
    apply (proj1 (parse_length f)) in E2. cbn [mbind option_bind].
    destruct (skip_ws r3) as [|c3 r4] eqn:H3; [done|].
    apply skip_ws_cons_length in H3.
    rewrite (IHm r4 f') by lia. done.
Qed.

(** The fuel that [JSON_parse] supplies is enough: more fuel never changes
    the outcome, so a failure is a syntax error of the text. *)
Lemma parse_value_fuel (s : jstring) (f : nat) :
  2 * length s + 2 ≤ f →
  parse_value f s = parse_value (2 * length s + 2) s.
Proof.
  intros Hf. apply (proj1 (parse_fuel_stable (2 * length s + 2))); lia.
Qed.

(** The parser on a few texts: white space between tokens, a number with
    an exponent, and two malformed texts. *)
Example JSON_parse_spaced :
  JSON_parse (lit " [1, 2.5e3 , true,null, {} , [ -40 ]] ")
  = Normal (VArr [VNum 1; VFrac (lit "2.5e3"); VBool true; VNull; VObj [];
                  VArr [VNum (-40)]]).
Proof. vm_compute. reflexivity. Qed.

Example JSON_parse_trailing_comma : JSON_parse (lit "[1,]") = Throw SyntaxError.
Proof. vm_compute. reflexivity. Qed.

Example JSON_parse_leading_zero : JSON_parse (lit "[01]") = Throw SyntaxError.
Proof. vm_compute. reflexivity. Qed.

(** ** The typed reading of stored values *)

Lemma as_item_item_value (x : CartItem) : as_item (item_value x) = Some x.
Proof. by destruct x. Qed.

Lemma as_item_inv (v : value) (x : CartItem) : as_item v = Some x → v = item_value x.
Proof.
  unfold as_item. intros H.
  repeat (case_match; try discriminate).
  simplify_eq.
  repeat match goal with
         | E : _ && _ = true |- _ => apply andb_true_iff in E as [? ?]
         | E : bool_decide _ = true |- _ => apply bool_decide_eq_true_1 in E
         end.
  by subst.
Qed.

Lemma as_cart_cart_value (cart : Cart) : as_cart (cart_value cart) = Some cart.
Proof.
  unfold as_cart, cart_value. induction cart as [|x cart IH]; [done|].
  cbn [map mapM]. rewrite as_item_item_value. cbn [mbind option_bind].
  cbn [mapM] in IH. by rewrite IH.
Qed.

Lemma as_cart_inv (v : value) (cart : Cart) : as_cart v = Some cart → v = cart_value cart.
Proof.
  destruct v as [ | | | | |xs|]; try done. unfold as_cart, cart_value.
  intros H. f_equal. revert cart H.
  induction xs as [|y xs IH]; intros cart H.
  - by injection H as <-.
  - cbn [mapM] in H. destruct (as_item y) as [x|] eqn:Hy; [|done].
    cbn [mbind option_bind] in H.
    destruct (mapM as_item xs) as [cart'|] eqn:Hxs; [|done].
    cbn in H. injection H as <-. cbn [map].
    f_equal; [by apply as_item_inv|by apply IH].
Qed.

Lemma integral_cart_value (cart : Cart) : integral (cart_value cart) = true.
Proof.
  unfold cart_value. cbn [integral]. induction cart as [|x cart IH]; [done|].
  cbn [map forallb]. by rewrite IH.
Qed.

(** ** The store *)

Lemma getCart_saveCart (v : value) (ls : Storage) :
  integral v = true → getCart (saveCart v ls) = Normal v.
Proof.
  intros Hv. unfold getCart, saveCart, getItem, setItem.
  rewrite lookup_insert_eq. unfold getCart_from, getCart_try. cbn [bind_completion].
  rewrite stringify_nonempty by done. by rewrite JSON_parse_stringify.
Qed.

Lemma load_saveCart (cart : Cart) (ls : Storage) :
  load (saveCart (cart_value cart) ls) = Some cart.
Proof.
  unfold load. rewrite getCart_saveCart by apply integral_cart_value.
  apply as_cart_cart_value.
Qed.

Lemma load_getCart (ls : Storage) (cart : Cart) :
  load ls = Some cart ↔ getCart ls = Normal (cart_value cart).
Proof.
  unfold load. split.
  - destruct (getCart ls) as [v|e]; [|done]. intros H. f_equal. by apply as_cart_inv.
  - intros ->. apply as_cart_cart_value.
Qed.

Lemma load_clearCart (ls : Storage) : load (clearCart ls) = Some [].
Proof. unfold load, clearCart. by rewrite getCart_saveCart. Qed.


(** ** Finding an item and reading the cart before a mutation *)


Lemma find_by_id_absent (key : jstring) (cart : Cart) :
  Forall (λ y, id y ≠ key) cart → find_by_id key cart = None.
Proof. intros H. unfold find_by_id. by apply list_find_None. Qed.



Lemma add_item_fresh (p : Product.t) (cart : Cart) :
  Forall (λ y, id y ≠ Product.id p) cart →
  add_item p cart = cart ++ [new_item p].
Proof. intros H. unfold add_item. by rewrite find_by_id_absent. Qed.

Lemma addToCart_load (p : Product.t) (ls : Storage) (cart : Cart) :
  load ls = Some cart →
  addToCart p ls = Some (saveCart (cart_value (add_item p cart)) ls).
Proof. intros H. unfold addToCart. by rewrite H. Qed.

Lemma removeFromCart_load (key : jstring) (ls : Storage) (cart : Cart) :
  load ls = Some cart →
  removeFromCart key ls = Some (saveCart (cart_value (remove_item key cart)) ls).
Proof. intros H. unfold removeFromCart. by rewrite H. Qed.

(** ** Adding *)




(** ** Adjusting a quantity *)




(** ** Reading and writing the store *)



(** C6.  Loading after saving gives back the cart that was saved, with
    its items in order and every field as it was. *)
Theorem save_then_load (cart : Cart) (ls : Storage) :
  getCart (saveCart (cart_value cart) ls) = Normal (cart_value cart)
  ∧ load (saveCart (cart_value cart) ls) = Some cart.
Proof.
  split; [|apply load_saveCart].
  apply getCart_saveCart, integral_cart_value.
Qed.

(** ** Mutations that name an absent id *)

Lemma remove_item_absent (key : jstring) (cart : Cart) :
  Forall (λ y, id y ≠ key) cart → remove_item key cart = cart.
Proof.
  unfold remove_item. induction 1 as [|x cart Hx _ IH]; [done|].
  rewrite filter_cons_True by done. by rewrite IH.
Qed.

(** C7.  When no item of the cart has the id, [removeFromCart] and
    [updateQuantity] leave the cart as it was, and neither fails. *)
Theorem missing_id_is_noop (ls : Storage) (cart : Cart) (key : jstring) (delta : Z) :
  load ls = Some cart → Forall (λ y, id y ≠ key) cart →
  (∃ ls', removeFromCart key ls = Some ls' ∧ load ls' = Some cart
          ∧ getCart ls' = getCart ls)
  ∧ updateQuantity key delta ls = Some ls.
Proof.
  intros Hload Habsent. split.
  - eexists. split; [by apply removeFromCart_load|].
    rewrite remove_item_absent by done. split; [apply load_saveCart|].
    rewrite getCart_saveCart by apply integral_cart_value.
    symmetry. by apply load_getCart.
  - unfold updateQuantity. rewrite Hload. cbn [mbind option_bind].
    by rewrite find_by_id_absent.
Qed.

Lemma missing_id_is_noop_witness :
  (∃ ls', removeFromCart (lit "zz") (saveCart (cart_value two_books) ∅) = Some ls'
          ∧ load ls' = Some two_books
          ∧ getCart ls' = getCart (saveCart (cart_value two_books) ∅))
  ∧ updateQuantity (lit "zz") 5 (saveCart (cart_value two_books) ∅)
    = Some (saveCart (cart_value two_books) ∅).
Proof.
  apply (missing_id_is_noop (saveCart (cart_value two_books) ∅) two_books (lit "zz") 5).
  - vm_compute. reflexivity.
  - repeat constructor; vm_compute; discriminate.
Defined.

(** ** Image paths *)

Lemma startsWith_app (s p1 p2 : jstring) :
  startsWith s (p1 ++ p2) = startsWith s p1 && startsWith (drop (length p1) s) p2.
Proof.
  revert s. induction p1 as [|a p1 IH]; intros s; [done|].
  destruct s as [|c s]; cbn [app startsWith length drop].
  - done.
  - rewrite IH. by rewrite andb_assoc.
Qed.

Lemma normalize_clean (path : jstring) :
  startsWith path (lit "../../") = false →
  clean_image (normalizePathForStorage path).
Proof.
  intros H. unfold clean_image, normalizePathForStorage.
  destruct (startsWith path (lit "../")) eqn:E; [|exact E].
  change (lit "../../") with (lit "../" ++ lit "../") in H.
  rewrite startsWith_app, E in H. exact H.
Qed.

Lemma add_item_clean (p : Product.t) (cart : Cart) :
  Forall (λ x, clean_image (image x)) cart →
  startsWith (Product.image p) (lit "../../") = false →
  Forall (λ x, clean_image (image x)) (add_item p cart).
Proof.
  intros Hcart Hp. unfold add_item.
  destruct (find_by_id (Product.id p) cart) as [[i existing]|] eqn:Hfind.
  - apply list_find_Some in Hfind as (Hi & _ & _).
    apply Forall_insert; [done|].
    rewrite Forall_forall in Hcart. apply (Hcart existing).
    by eapply list_elem_of_lookup_2.
  - apply Forall_app. split; [done|].
    constructor; [|done]. by apply normalize_clean.
Qed.

(** C4, amended.  [normalizePathForStorage] removes one leading
    parent-directory step.  So for a descriptor whose image does not begin
    with two of them, [addToCart] keeps the stored images free of a leading
    parent-directory step; the image stored for a new item is
    [normalizePathForStorage] of the descriptor's image. *)
Theorem addToCart_keeps_images_clean (ls : Storage) (cart : Cart) (p : Product.t) :
  load ls = Some cart →
  Forall (λ x, clean_image (image x)) cart →
  startsWith (Product.image p) (lit "../../") = false →
  ∃ ls' cart', addToCart p ls = Some ls' ∧ load ls' = Some cart'
               ∧ Forall (λ x, clean_image (image x)) cart'
               ∧ (Forall (λ y, id y ≠ Product.id p) cart →
                  ∃ x, cart' = cart ++ [x]
                       ∧ image x = normalizePathForStorage (Product.image p)).
Proof.
  intros Hload Hcart Hp. eexists _, _. split; [by apply addToCart_load|].
  split; [apply load_saveCart|]. split; [by apply add_item_clean|].
  intros Hfresh. rewrite add_item_fresh by done. by eexists.
Qed.

Lemma addToCart_keeps_images_clean_witness :
  ∃ ls' cart', addToCart p_first (saveCart (cart_value two_books) ∅) = Some ls'
               ∧ load ls' = Some cart'
               ∧ Forall (λ x, clean_image (image x)) cart'
               ∧ (Forall (λ y, id y ≠ Product.id p_first) two_books →
                  ∃ x, cart' = two_books ++ [x]
                       ∧ image x = normalizePathForStorage (Product.image p_first)).
Proof.
  apply (addToCart_keeps_images_clean (saveCart (cart_value two_books) ∅) two_books p_first).
  - vm_compute. reflexivity.
  - repeat constructor.
  - reflexivity.
Defined.

(** C4 as stated fails: a descriptor image with two stacked
    parent-directory steps is stored with one of them left. *)
Lemma stacked_prefix_is_stored :
  (ls' ← addToCart p_stacked ∅; load ls')
  = Some [mkItem (lit "b1") (lit "Title") 1000 (lit "../assets/x.jpg") 1]
  ∧ startsWith (lit "../assets/x.jpg") (lit "../") = true.
Proof. split; vm_compute; reflexivity. Qed.

(** C5, amended.  On a page under [/details/], a non-empty path that
    begins neither with [http] nor with [//] and has no parent-directory
    prefix is shown with one parent-directory step in front. *)
Theorem resolveImagePath_nested (pathname rawPath : jstring) :
  isDetailsPage pathname = true →
  rawPath ≠ [] →
  startsWith rawPath (lit "http") = false →
  startsWith rawPath (lit "//") = false →
  startsWith rawPath (lit "../") = false →
  resolveImagePath pathname rawPath = lit "../" ++ rawPath.
Proof.
  intros Hpage Hne Hhttp Hslash Hparent. unfold resolveImagePath.
  destruct rawPath as [|c r]; [done|]. cbn [falsy].
  by rewrite Hhttp, Hslash, Hpage, Hparent.
Qed.

Lemma resolveImagePath_nested_witness :
  resolveImagePath (lit "/details/book.html") (lit "assets/cover.jpg")
  = lit "../assets/cover.jpg".
Proof.
  apply (resolveImagePath_nested (lit "/details/book.html") (lit "assets/cover.jpg"));
    try reflexivity.
  discriminate.
Defined.

(** C5 as stated fails: the test for an absolute reference is on the
    four letters [http], so a relative path into a folder whose name
    starts with them is returned unchanged although it has no scheme. *)
Lemma http_named_folder_is_left_alone :
  isDetailsPage (lit "/details/book.html") = true
  ∧ lit "httpdocs/cover.jpg" ≠ []
  ∧ startsWith (lit "httpdocs/cover.jpg") (lit "http://") = false
  ∧ startsWith (lit "httpdocs/cover.jpg") (lit "https://") = false
  ∧ includes (lit "httpdocs/cover.jpg") (lit "://") = false
  ∧ startsWith (lit "httpdocs/cover.jpg") (lit "//") = false
  ∧ startsWith (lit "httpdocs/cover.jpg") (lit "../") = false
  ∧ resolveImagePath (lit "/details/book.html") (lit "httpdocs/cover.jpg")
    = lit "httpdocs/cover.jpg"
  ∧ resolveImagePath (lit "/details/book.html") (lit "httpdocs/cover.jpg")
    ≠ lit "../" ++ lit "httpdocs/cover.jpg".
Proof. split_and!; try (vm_compute; reflexivity); discriminate. Qed.

(** The other two cases of the resolver: a parent-directory prefix is
    removed on a page at the site root, and an absolute reference is left
    as it is. *)
Example resolveImagePath_root :
  resolveImagePath (lit "/cart.html") (lit "../assets/cover.jpg") = lit "assets/cover.jpg".
Proof. reflexivity. Qed.

Example resolveImagePath_external :
  resolveImagePath (lit "/details/book.html") (lit "http://x/y.jpg") = lit "http://x/y.jpg".
Proof. reflexivity. Qed.

(** ** The cart view *)





(** ** Removing *)

Lemma remove_item_spec (key : jstring) (cart : Cart) :
  Forall (λ x, id x ≠ key) (remove_item key cart)
  ∧ sublist (remove_item key cart) cart
  ∧ length (remove_item key cart) + length (filter (λ x, id x = key) cart) = length cart.
Proof.
  unfold remove_item. split_and!.
  - apply Forall_forall. intros x Hx. by apply list_elem_of_filter in Hx as [? _].
  - apply sublist_filter.
  - induction cart as [|x cart IH]; [done|].
    destruct (decide (id x = key)) as [Hx|Hx].
    + rewrite filter_cons_False by (intros H; by apply H).
      rewrite (filter_cons_True (λ x, id x = key)) by done. simpl. lia.
    + rewrite filter_cons_True by done.
      rewrite (filter_cons_False (λ x, id x = key)) by done. simpl. lia.
Qed.

(** C9.  [removeFromCart] followed by [addToCart] with the same id leaves
    an item of that id in the cart, and every item of that id has
    quantity exactly 1 (and the descriptor's title and price). *)
Theorem remove_then_add_is_fresh (ls : Storage) (cart : Cart) (p : Product.t) :
  load ls = Some cart →
  ∃ ls1 ls2 cart2,
    removeFromCart (Product.id p) ls = Some ls1
    ∧ addToCart p ls1 = Some ls2
    ∧ load ls2 = Some cart2
    ∧ (∃ x, x ∈ cart2 ∧ id x = Product.id p)
    ∧ (∀ x, x ∈ cart2 → id x = Product.id p →
         quantity x = 1%Z ∧ title x = Product.title p ∧ price x = Product.price p).
Proof.
  intros Hload.
  destruct (remove_item_spec (Product.id p) cart) as (Hgone & _ & _).
  eexists _, _, _. split; [by apply removeFromCart_load|].
  split; [apply addToCart_load, load_saveCart|].
  split; [apply load_saveCart|].
  rewrite add_item_fresh by done. split.
  - exists (new_item p). split; [|done]. apply elem_of_app. right. by constructor.
  - intros x Hx Hid. apply elem_of_app in Hx as [Hx|Hx].
    + rewrite Forall_forall in Hgone. by destruct (Hgone x Hx).
    + apply list_elem_of_singleton in Hx as ->. done.
Qed.

Lemma remove_then_add_is_fresh_witness :
  ∃ ls1 ls2 cart2,
    removeFromCart (lit "a") (saveCart (cart_value two_books) ∅) = Some ls1
    ∧ addToCart (Product.make (lit "a") (lit "A") 1000 (lit "assets/a.jpg")) ls1 = Some ls2
    ∧ load ls2 = Some cart2
    ∧ (∃ x, x ∈ cart2 ∧ id x = lit "a")
    ∧ (∀ x, x ∈ cart2 → id x = lit "a" →
         quantity x = 1%Z ∧ title x = lit "A" ∧ price x = 1000%Z).
Proof.
  apply (remove_then_add_is_fresh (saveCart (cart_value two_books) ∅) two_books
           (Product.make (lit "a") (lit "A") 1000 (lit "assets/a.jpg"))).
  vm_compute. reflexivity.
Defined.

(** C10.  [removeFromCart] removes every entry with the id, also when
    several entries share it, and keeps the other entries, all of them, in
    their order. *)
Theorem removeFromCart_removes_every_match (ls : Storage) (cart : Cart) (key : jstring) :
  load ls = Some cart →
  ∃ ls' cart',
    removeFromCart key ls = Some ls'
    ∧ load ls' = Some cart'
    ∧ Forall (λ x, id x ≠ key) cart'
    ∧ sublist cart' cart
    ∧ length cart' + length (filter (λ x, id x = key) cart) = length cart.
Proof.
  intros Hload. eexists _, _. split; [by apply removeFromCart_load|].
  split; [apply load_saveCart|]. apply remove_item_spec.
Qed.

Lemma removeFromCart_removes_every_match_witness :
  ∃ ls' cart',
    removeFromCart (lit "a") (saveCart (cart_value repeated_ids) ∅) = Some ls'
    ∧ load ls' = Some cart'
    ∧ Forall (λ x, id x ≠ lit "a") cart'
    ∧ sublist cart' repeated_ids
    ∧ length cart' + 2 = 4.
Proof.
  apply (removeFromCart_removes_every_match (saveCart (cart_value repeated_ids) ∅)
           repeated_ids (lit "a")).
  vm_compute. reflexivity.
Defined.
